(** * Scoped animation lifecycle of a GSAP component under Astro View Transitions

    Embedding of the lifecycle pattern of the "GSAP Progressive Enhancement
    + View Transitions Workflow" (section 1, the TypeScript pattern every
    animated component repeats) and of the brand configuration records of
    [src/brands].

    The two collaborators of the pattern are outside the repository:
    the document ([document.querySelector]) and the animation library
    ([gsap.context], [Context.revert]).  They are modelled as an explicit
    world threaded through a small state-and-exception monad; what they
    answer on a given page load is an input of the model. *)

From stdpp Require Import base option list gmap strings.
From Stdlib Require Import QArith.
Local Open Scope nat_scope.
Local Open Scope string_scope.
Local Open Scope list_scope.

(** ** Data model *)

(** A CSS selector, as passed to [document.querySelector]. *)
Definition Selector := string.

(** Identity of a DOM element. *)
Definition Element := nat.

(** Identity of a [gsap.Context] object. *)
Definition Handle := nat.

(** How a JavaScript call ends: it returns a value or it throws. *)
Inductive Completion (A : Type) : Type :=
| Normal (a : A)
| Throw.
Arguments Normal {A} a.
Arguments Throw {A}.

(** Calls the component makes to its collaborators. *)
Inductive Call : Type :=
| CallRevert (h : Handle)
| CallQuerySelector (sel : Selector)
| CallContext (el : Element) (r : Completion Handle).

(** What the environment answers during one [astro:page-load]:
    [query sel] is the outcome of [document.querySelector(sel)] ([None] is
    JavaScript's [null]) and [callback] is the outcome of the registration
    callback handed to [gsap.context]. *)
Record Page : Type := mkPage {
  query : Selector -> Completion (option Element);
  callback : Completion unit;
}.

(** The world: the module-scoped variable [ctx] of the component, the state
    of the animation library, and the calls made so far (oldest first). *)
Record World : Type := mkWorld {
  ctx : option Handle;
  live : gset Handle;
  next : Handle;
  log : list Call;
}.

(** [let ctx: gsap.Context | null = null;] at module evaluation. *)
Definition init : World :=
  {| ctx := None; live := ∅; next := 0; log := [] |}.

(** The two states of the coordinator. *)
Inductive State : Type :=
| IDLE
| ACTIVE (h : Handle).

Definition state_of (w : World) : State :=
  match ctx w with
  | Some h => ACTIVE h
  | None => IDLE
  end.

(** ** A state-and-exception monad for the handlers *)

Definition JS (A : Type) : Type := World -> Completion A * World.

Definition ret {A} (a : A) : JS A := fun w => (Normal a, w).

Definition bind {A B} (m : JS A) (k : A -> JS B) : JS B :=
  fun w =>
    match m w with
    | (Normal a, w') => k a w'
    | (Throw, w') => (Throw, w')
    end.

Declare Scope js_scope.
Delimit Scope js_scope with js.
Notation "x <- m ;; k" := (bind m (fun x => k))
  (at level 100, m at next level, right associativity) : js_scope.
Notation "m ;;; k" := (bind m (fun _ => k))
  (at level 100, right associativity) : js_scope.

(** Reading and assigning the variable [ctx]. *)
Definition read_ctx : JS (option Handle) := fun w => (Normal (ctx w), w).

Definition assign_ctx (v : option Handle) : JS unit :=
  fun w => (Normal tt,
            {| ctx := v; live := live w; next := next w; log := log w |}).

(** [document.querySelector(sel)] on page [p]. *)
Definition querySelector (p : Page) (sel : Selector) : JS (option Element) :=
  fun w =>
    (query p sel,
     {| ctx := ctx w; live := live w; next := next w;
        log := log w ++ [CallQuerySelector sel] |}).

(** Modelled from the spec: the animation library, which is not part of the
    repository.  [Context.revert] undoes the scope and invalidates the
    handle; reverting a handle that is not live changes nothing. *)
Definition Context_revert (h : Handle) : JS unit :=
  fun w => (Normal tt,
            {| ctx := ctx w; live := live w ∖ {[h]}; next := next w;
               log := log w ++ [CallRevert h] |}).

(** Modelled from the spec: [gsap.context(callback, el)] returns a new
    handle, live from then on.  The spec gives the call no throwing outcome.
    For a registration callback that throws, the model only assumes that the
    call throws and returns no handle, and it records no scope for it: what
    is said about live scopes is meant for runs whose callbacks return. *)
Definition gsap_context (p : Page) (el : Element) : JS Handle :=
  fun w =>
    match callback p with
    | Normal _ =>
        (Normal (next w),
         {| ctx := ctx w; live := {[next w]} ∪ live w; next := S (next w);
            log := log w ++ [CallContext el (Normal (next w))] |})
    | Throw =>
        (Throw,
         {| ctx := ctx w; live := live w; next := next w;
            log := log w ++ [CallContext el Throw] |})
    end.

(** ** The handlers *)

Local Open Scope js_scope.

(** [function initAnimations()], listener of [astro:page-load]. *)
Definition initAnimations (region : Selector) (p : Page) : JS unit :=
  c <- read_ctx ;;
  match c with
  | Some h => Context_revert h ;;; assign_ctx None
  | None => ret tt
  end ;;;
  section <- querySelector p region ;;
  match section with
  | None => ret tt
  | Some el => h <- gsap_context p el ;; assign_ctx (Some h)
  end.

(** The anonymous listener of [astro:before-swap]. *)
Definition beforeSwap : JS unit :=
  c <- read_ctx ;;
  match c with
  | Some h => Context_revert h ;;; assign_ctx None
  | None => ret tt
  end.

Local Close Scope js_scope.

(** The two navigation signals. *)
Inductive Signal : Type :=
| PageLoad (p : Page)
| BeforeSwap.

Definition handler (region : Selector) (s : Signal) : JS unit :=
  match s with
  | PageLoad p => initAnimations region p
  | BeforeSwap => beforeSwap
  end.

(** Event dispatch: the listener runs to completion; an exception it throws
    is reported by the host and does not undo what the listener did. *)
Definition dispatch (region : Selector) (w : World) (s : Signal) : World :=
  snd (handler region s w).

Definition run (region : Selector) (sigs : list Signal) (w : World) : World :=
  fold_left (dispatch region) sigs w.

(** Counting calls in a log. *)
Definition is_revert (c : Call) : bool :=
  match c with CallRevert _ => true | _ => false end.

Definition is_open (c : Call) : bool :=
  match c with CallContext _ _ => true | _ => false end.

Definition reverts (l : list Call) : nat := length (List.filter is_revert l).
Definition opens (l : list Call) : nat := length (List.filter is_open l).

(** The handles [gsap.context] has returned in a log. *)
Fixpoint issued (l : list Call) : list Handle :=
  match l with
  | [] => []
  | CallContext _ (Normal h) :: l' => h :: issued l'
  | _ :: l' => issued l'
  end.

(** The handles a log leaves live: returned by [gsap.context] and not
    reverted since. *)
Definition replay (s : gset Handle) (c : Call) : gset Handle :=
  match c with
  | CallContext _ (Normal h) => {[h]} ∪ s
  | CallRevert h => s ∖ {[h]}
  | _ => s
  end.

Definition live_of_log (l : list Call) : gset Handle := fold_left replay l ∅.

(** The handles held by the slot. *)
Definition held (slot : option Handle) : gset Handle :=
  match slot with
  | Some h => {[h]}
  | None => ∅
  end.

Definition occupied (w : World) : bool :=
  match ctx w with
  | Some _ => true
  | None => false
  end.

(** The revert calls the clean-up block makes for a given slot. *)
Definition cleanup_calls (slot : option Handle) : list Call :=
  match slot with
  | Some h => [CallRevert h]
  | None => []
  end.

(** Lines 27 to 35 of the pattern: the part of [initAnimations] after the
    clean-up block. *)
Definition mount (region : Selector) (p : Page) : JS unit :=
  (section <- querySelector p region ;;
   match section with
   | None => ret tt
   | Some el => h <- gsap_context p el ;; assign_ctx (Some h)
   end)%js.

(** A page that renders the region as element [el] and whose registration
    callback returns. *)
Definition page_with (region : Selector) (el : Element) : Page :=
  {| query := fun sel => Normal (if decide (sel = region) then Some el else None);
     callback := Normal tt |}.

(** A page that renders nothing. *)
Definition page_without : Page :=
  {| query := fun _ => Normal None; callback := Normal tt |}.

(** A page that renders the region but whose registration callback throws. *)
Definition page_failing (region : Selector) (el : Element) : Page :=
  {| query := fun sel => Normal (if decide (sel = region) then Some el else None);
     callback := Throw |}.

(** A page on which the lookup itself throws. *)
Definition page_broken : Page :=
  {| query := fun _ => Throw; callback := Normal tt |}.

(** The invariant of the coordinator: the library's live scopes are exactly
    the handle in the slot, and every handle seen so far is older than the
    next one the library will return. *)
Definition Inv (w : World) : Prop :=
  live w = held (ctx w) ∧
  (∀ h, ctx w = Some h → h < next w) ∧
  (∀ h, h ∈ issued (log w) → h < next w).

(** Scanning a log while remembering the scope that is open: an open call
    while a scope is open is refused ([None]); a revert closes the scope it
    names. *)
Fixpoint bracket (cur : option Handle) (l : list Call) : option (option Handle) :=
  match l with
  | [] => Some cur
  | CallRevert h :: l' =>
      bracket (match cur with
               | Some h' => if decide (h = h') then None else cur
               | None => None
               end) l'
  | CallQuerySelector _ :: l' => bracket cur l'
  | CallContext _ r :: l' =>
      match cur with
      | Some _ => None
      | None => bracket (match r with Normal h => Some h | Throw => None end) l'
      end
  end.


(** ** Brand configuration ([src/brands]) *)

(** [export type BrandConfig]: a field declared with [?] is optional.  The
    two number fields hold the decimal literals of the source as exact
    rationals. *)
Record BrandConfig : Type := mkBrandConfig {
  id : string;
  name : string;
  schemaName : option string;
  domain : option string;
  logoPath : string;
  logoPathWhite : option string;
  primaryColor : string;
  accentColor : string;
  phone : string;
  email : string;
  address : string;
  cityLabel : string;
  googleMapsUrl : option string;
  gaId : option string;
  metaPixelId : option string;
  latitude : option Q;
  longitude : option Q;
  streetAddress : option string;
  addressLocality : option string;
  addressRegion : option string;
  postalCode : option string;
  ratingValue : option string;
  reviewCount : option string;
  shopImage : option string;
}.

(** [mobile-tires.ts], the variant for Queens Auto Service. *)
Module QueensAutoService.

Definition mobileTiresBrand : BrandConfig :=
  {| id := "mobile-tires";
     name := "Queens Auto Service";
     schemaName := Some "Queens Auto Services Elgin";
     domain := Some "queensautoserviceselgin.com";
     logoPath := "/images/logos/site logos/New-Logo.webp";
     logoPathWhite := Some "/images/logos/site logos/Logo-White.webp";
     primaryColor := "#0b1121";
     accentColor := "#0e79c9";
     phone := "(224) 635-3000";
     email := "info@queensautoserviceselgin.com";
     address := "1303 Dundee Ave, Elgin, IL 60120";
     cityLabel := "Professional Auto Service – Elgin, IL";
     googleMapsUrl :=
       Some "https://www.google.com/maps/search/?api=1&query=1303+Dundee+Ave+Elgin+IL+60120";
     gaId := None;
     metaPixelId := None;
     latitude := Some (420615014 # 10000000)%Q;
     longitude := Some (-882652443 # 10000000)%Q;
     streetAddress := Some "1303 Dundee Ave";
     addressLocality := Some "Elgin";
     addressRegion := Some "IL";
     postalCode := Some "60120";
     ratingValue := Some "4.5";
     reviewCount := Some "147";
     shopImage := Some "/images/shop/Queens-Auto-Services-Elgin-a-view-from-outside.webp" |}.

End QueensAutoService.

(** [mobile-tires.ts], the variant for Queens Mobile Tires. *)
Module QueensMobileTires.

Definition mobileTiresBrand : BrandConfig :=
  {| id := "mobile-tires";
     name := "Queens Mobile Tires";
     schemaName := None;
     domain := Some "queensmobiletires.com";
     logoPath := "/images/logos/site logos/New-Logo.webp";
     logoPathWhite := Some "/images/logos/site logos/Logo-White.webp";
     primaryColor := "#0b1121";
     accentColor := "#0e79c9";
     phone := "(847) 925-1100";
     email := "info@queensmobiletires.com";
     address := "Everywhere";
     cityLabel := "Mobile Tire Service â€“ Chicagoland";
     googleMapsUrl :=
       Some "https://maps.google.com/?q=2401+E+Algonquin+Rd,+Lake+in+the+Hills,+IL+60102";
     gaId := None;
     metaPixelId := None;
     latitude := None;
     longitude := None;
     streetAddress := None;
     addressLocality := None;
     addressRegion := None;
     postalCode := None;
     ratingValue := None;
     reviewCount := None;
     shopImage := None |}.

End QueensMobileTires.

(** The brand records the module exports, one per variant of the file. *)
Definition exported_brands : list BrandConfig :=
  [QueensAutoService.mobileTiresBrand; QueensMobileTires.mobileTiresBrand].

Definition present {A} (o : option A) : bool :=
  match o with
  | Some _ => true
  | None => false
  end.

Definition nonempty (s : string) : bool :=
  match s with
  | EmptyString => false
  | String _ _ => true
  end.

(** A record supplies its name and its contact information. *)
Definition supplies_identity (b : BrandConfig) : bool :=
  nonempty (id b) && nonempty (name b) &&
  nonempty (phone b) && nonempty (email b) && nonempty (address b).

(** A record supplies geo-coordinates. *)
Definition supplies_geo (b : BrandConfig) : bool :=
  present (latitude b) && present (longitude b).

(** A record supplies the schema metadata. *)
Definition supplies_schema (b : BrandConfig) : bool :=
  present (schemaName b) && present (streetAddress b) &&
  present (addressLocality b) && present (addressRegion b) &&
  present (postalCode b) && present (ratingValue b) && present (reviewCount b).

(** ** Further observations on logs and signal sequences *)

(** The handles reverted in a log, oldest first. *)
Fixpoint reverted (l : list Call) : list Handle :=
  match l with
  | [] => []
  | CallRevert h :: l' => h :: reverted l'
  | _ :: l' => reverted l'
  end.

Definition is_lookup (c : Call) : bool :=
  match c with CallQuerySelector _ => true | _ => false end.

Definition lookups (l : list Call) : nat := length (List.filter is_lookup l).

Definition is_page_load (s : Signal) : bool :=
  match s with PageLoad _ => true | BeforeSwap => false end.

Definition page_loads (sigs : list Signal) : nat :=
  length (List.filter is_page_load sigs).

(** Scanning a log against the open/revert protocol: while a scope is open
    the only call accepted is the revert of that scope; lookups and opens
    need the slot to be free; anything else is refused ([None]). *)
Fixpoint protocol (cur : option Handle) (l : list Call) : option (option Handle) :=
  match l with
  | [] => Some cur
  | CallRevert h :: l' =>
      match cur with
      | Some h' => if decide (h = h') then protocol None l' else None
      | None => None
      end
  | CallQuerySelector _ :: l' =>
      match cur with
      | Some _ => None
      | None => protocol None l'
      end
  | CallContext _ r :: l' =>
      match cur with
      | Some _ => None
      | None => protocol (match r with Normal h => Some h | Throw => None end) l'
      end
  end.

(** The bookkeeping the two listeners keep between them: no handle is
    reverted twice, the handle in the slot has not been reverted, and every
    scope the library returned is either reverted or the one in the slot. *)
Definition Ledger (w : World) : Prop :=
  NoDup (reverted (log w)) ∧
  (∀ h, h ∈ reverted (log w) → h < next w) ∧
  (∀ h, ctx w = Some h → h < next w ∧ h ∉ reverted (log w)) ∧
  length (issued (log w)) =
    length (reverted (log w)) + (if occupied w then 1 else 0).

(** ** Reveal animations ([initReveals] of the progressive-enhancement
    workflow, step 4) *)

Module Reveals.

(** What [el.getBoundingClientRect()] answers, in CSS pixels.  The values
    are finite doubles; they are kept as the rationals they denote, on which
    [<] and [>] agree with JavaScript's. *)
Record DOMRect : Type := mkDOMRect {
  top : Q;
  bottom : Q;
}.

(** An element of the node list [document.querySelectorAll("[data-reveal]")]
    returned, with its rectangle. *)
Record Node : Type := mkNode {
  target : Element;
  rect : DOMRect;
}.

(** The calls [initReveals] makes: [gsap.set(el, { opacity, y })],
    [void el.offsetWidth], [gsap.to(el, { opacity, y, duration })] and
    [observer.observe(el)]. *)
Inductive Effect : Type :=
| GsapSet (el : Element) (opacity y : Z)
| ForceReflow (el : Element)
| GsapTo (el : Element) (opacity y : Z) (duration : Q)
| Observe (el : Element).

Definition Qltb (x y : Q) : bool := negb (Qle_bool y x).

(** [rect.top < window.innerHeight && rect.bottom > 0]. *)
Definition isInViewport (innerHeight : Q) (r : DOMRect) : bool :=
  Qltb (top r) innerHeight && Qltb 0 (bottom r).

(** The callback of [elements.forEach]. *)
Definition reveal (innerHeight : Q) (calls : list Effect) (n : Node) : list Effect :=
  if isInViewport innerHeight (rect n) then
    calls ++ [GsapSet (target n) 0 30; ForceReflow (target n);
              GsapTo (target n) 1 0 (8 # 10)]
  else
    calls ++ [GsapSet (target n) 0 30; Observe (target n)].

(** [function initReveals()], on the node list [elements], appending to the
    calls made so far. *)
Definition initReveals (innerHeight : Q) (elements : list Node)
    (calls : list Effect) : list Effect :=
  fold_left (reveal innerHeight) elements calls.

(** The elements hidden, animated and handed to the observer in a list of
    calls, in call order. *)
Fixpoint hidden (l : list Effect) : list Element :=
  match l with
  | [] => []
  | GsapSet el _ _ :: l' => el :: hidden l'
  | _ :: l' => hidden l'
  end.

Fixpoint animated (l : list Effect) : list Element :=
  match l with
  | [] => []
  | GsapTo el _ _ _ :: l' => el :: animated l'
  | _ :: l' => animated l'
  end.

Fixpoint observed (l : list Effect) : list Element :=
  match l with
  | [] => []
  | Observe el :: l' => el :: observed l'
  | _ :: l' => observed l'
  end.

End Reveals.

(** ** Further definitions for the ledger and the brand module *)

(** The registration callback of a page-load returns (a before-swap has none). *)
Definition registration_returns (s : Signal) : bool :=
  match s with
  | PageLoad p =>
      match callback p with
      | Normal _ => true
      | Throw => false
      end
  | BeforeSwap => true
  end.

(** Every handle the library has returned is settled: a revert call names
    it, or it is the handle in the slot. *)
Definition Settled (w : World) : Prop :=
  ∀ h, h ∈ issued (log w) → h ∈ reverted (log w) ∨ ctx w = Some h.

(** Evaluating a variant of [mobile-tires.ts] that exports the record
    [exported]: the [import type] line is erased, and the body is one
    [export const] bound to an object literal whose fields are string and
    number literals.  Nothing is called and nothing outside the module is
    assigned; the evaluation yields the record. *)
Definition evaluate_module (exported : BrandConfig) : JS BrandConfig :=
  ret exported.

(** ** Equations of the handlers *)

Lemma beforeSwap_eq (w : World) :
  beforeSwap w =
  (Normal tt,
   match ctx w with
   | Some h => {| ctx := None; live := live w ∖ {[h]}; next := next w;
                  log := log w ++ [CallRevert h] |}
   | None => w
   end).
Proof.
  unfold beforeSwap, bind, read_ctx. destruct (ctx w); reflexivity.
Qed.

Lemma beforeSwap_normal (w : World) : fst (beforeSwap w) = Normal tt.
Proof. rewrite beforeSwap_eq. reflexivity. Qed.

Lemma beforeSwap_ctx (w : World) : ctx (snd (beforeSwap w)) = None.
Proof. rewrite beforeSwap_eq. simpl. destruct (ctx w) eqn:E; simpl; auto. Qed.

Lemma beforeSwap_next (w : World) : next (snd (beforeSwap w)) = next w.
Proof. rewrite beforeSwap_eq. simpl. destruct (ctx w); reflexivity. Qed.

Lemma beforeSwap_log (w : World) :
  log (snd (beforeSwap w)) = log w ++ cleanup_calls (ctx w).
Proof.
  rewrite beforeSwap_eq. simpl.
  destruct (ctx w); simpl; [reflexivity | by rewrite app_nil_r].
Qed.

Lemma beforeSwap_live (w : World) :
  live (snd (beforeSwap w)) = live w ∖ held (ctx w).
Proof.
  rewrite beforeSwap_eq. simpl.
  destruct (ctx w); simpl; [reflexivity | by rewrite difference_empty_L].
Qed.

(** [initAnimations] is the clean-up block of the [astro:before-swap]
    listener followed by the lookup and the open. *)
Lemma initAnimations_cleanup_then_mount (region : Selector) (p : Page) (w : World) :
  initAnimations region p w = mount region p (snd (beforeSwap w)).
Proof.
  rewrite beforeSwap_eq. unfold initAnimations, mount, bind, read_ctx.
  destruct (ctx w); reflexivity.
Qed.

Lemma mount_eq (region : Selector) (p : Page) (w : World) :
  mount region p w =
  let w1 := {| ctx := ctx w; live := live w; next := next w;
               log := log w ++ [CallQuerySelector region] |} in
  match query p region with
  | Throw => (Throw, w1)
  | Normal None => (Normal tt, w1)
  | Normal (Some el) =>
      match callback p with
      | Throw =>
          (Throw, {| ctx := ctx w; live := live w; next := next w;
                     log := log w1 ++ [CallContext el Throw] |})
      | Normal _ =>
          (Normal tt, {| ctx := Some (next w); live := {[next w]} ∪ live w;
                         next := S (next w);
                         log := log w1 ++ [CallContext el (Normal (next w))] |})
      end
  end.
Proof.
  unfold mount, bind, querySelector, gsap_context, assign_ctx, ret. simpl.
  destruct (query p region) as [[el|]|]; try reflexivity.
  simpl. destruct (callback p); reflexivity.
Qed.

Lemma initAnimations_eq (region : Selector) (p : Page) (w : World) :
  initAnimations region p w =
  let w1 := {| ctx := None; live := live w ∖ held (ctx w); next := next w;
               log := log w ++ cleanup_calls (ctx w) ++ [CallQuerySelector region] |} in
  match query p region with
  | Throw => (Throw, w1)
  | Normal None => (Normal tt, w1)
  | Normal (Some el) =>
      match callback p with
      | Throw =>
          (Throw, {| ctx := None; live := live w1; next := next w;
                     log := log w1 ++ [CallContext el Throw] |})
      | Normal _ =>
          (Normal tt, {| ctx := Some (next w); live := {[next w]} ∪ live w1;
                         next := S (next w);
                         log := log w1 ++ [CallContext el (Normal (next w))] |})
      end
  end.
Proof.
  rewrite initAnimations_cleanup_then_mount, mount_eq.
  rewrite beforeSwap_ctx, beforeSwap_next, beforeSwap_live, beforeSwap_log.
  cbn zeta. cbn [log live]. rewrite <- app_assoc. reflexivity.
Qed.

(** ** Facts about logs *)

Lemma reverts_app (l1 l2 : list Call) : reverts (l1 ++ l2) = reverts l1 + reverts l2.
Proof. unfold reverts. by rewrite List.filter_app, length_app. Qed.

Lemma opens_app (l1 l2 : list Call) : opens (l1 ++ l2) = opens l1 + opens l2.
Proof. unfold opens. by rewrite List.filter_app, length_app. Qed.

Lemma opens_cleanup_calls (slot : option Handle) : opens (cleanup_calls slot) = 0.
Proof. by destruct slot. Qed.

Lemma issued_app (l1 l2 : list Call) : issued (l1 ++ l2) = issued l1 ++ issued l2.
Proof.
  induction l1 as [|c l1 IH]; [done|].
  destruct c as [h|sel|el [h|]]; simpl; by rewrite ?IH.
Qed.

Lemma issued_cleanup_calls (slot : option Handle) : issued (cleanup_calls slot) = [].
Proof. by destruct slot. Qed.

Lemma live_of_log_snoc (l : list Call) (c : Call) :
  live_of_log (l ++ [c]) = replay (live_of_log l) c.
Proof. unfold live_of_log. by rewrite fold_left_app. Qed.

(** ** The invariant *)

Lemma size_held (slot : option Handle) : size (held slot) = 0 ∨ size (held slot) = 1.
Proof.
  destruct slot; cbn [held]; [right; apply size_singleton | left; apply size_empty].
Qed.

Lemma Inv_init : Inv init.
Proof.
  split; [reflexivity|]. split; intros h H.
  - discriminate H.
  - by apply elem_of_nil in H.
Qed.

Lemma Inv_beforeSwap (w : World) : Inv w → Inv (snd (beforeSwap w)).
Proof.
  intros (Hl & Hs & Hi). repeat split.
  - rewrite beforeSwap_live, beforeSwap_ctx, Hl. apply difference_diag_L.
  - rewrite beforeSwap_ctx. discriminate.
  - rewrite beforeSwap_log, beforeSwap_next, issued_app, issued_cleanup_calls, app_nil_r.
    exact Hi.
Qed.

Lemma Inv_mount (region : Selector) (p : Page) (w : World) :
  Inv w → ctx w = None → Inv (snd (mount region p w)).
Proof.
  intros (Hl & Hs & Hi) Hc. rewrite mount_eq. cbn zeta.
  assert (Hq : ∀ h : Handle, h ∈ issued (log w ++ [CallQuerySelector region]) → h < next w).
  { intros h. rewrite issued_app. simpl. rewrite app_nil_r. apply Hi. }
  destruct (query p region) as [[el|]|]; [destruct (callback p)|..];
    repeat split; simpl; try done.
  - rewrite Hl, Hc. apply union_empty_r_L.
  - intros h [= <-]. lia.
  - intros h. rewrite issued_app. simpl. rewrite elem_of_app, list_elem_of_singleton.
    intros [H| ->]; [apply Hq in H|]; lia.
  - intros h. rewrite issued_app. simpl. rewrite app_nil_r. apply Hq.
Qed.

Lemma Inv_initAnimations (region : Selector) (p : Page) (w : World) :
  Inv w → Inv (snd (initAnimations region p w)).
Proof.
  intros H. rewrite initAnimations_cleanup_then_mount.
  apply Inv_mount; [by apply Inv_beforeSwap | apply beforeSwap_ctx].
Qed.

Lemma Inv_dispatch (region : Selector) (w : World) (s : Signal) :
  Inv w → Inv (dispatch region w s).
Proof.
  destruct s; [apply Inv_initAnimations | apply Inv_beforeSwap].
Qed.

Lemma Inv_run (region : Selector) (sigs : list Signal) (w : World) :
  Inv w → Inv (run region sigs w).
Proof.
  revert w. induction sigs as [|s sigs IH]; intros w H; [exact H|].
  simpl. apply IH. by apply Inv_dispatch.
Qed.

(** The library's live set is what the log says: the handles returned by
    [gsap.context] and not reverted since. *)
Lemma live_run_of_log (region : Selector) (sigs : list Signal) (w : World) :
  live w = live_of_log (log w) →
  live (run region sigs w) = live_of_log (log (run region sigs w)).
Proof.
  revert w. induction sigs as [|s sigs IH]; intros w H; [exact H|].
  simpl. apply IH. unfold dispatch. destruct s as [p|]; simpl.
  - rewrite initAnimations_eq. cbn zeta.
    assert (H1 : live w ∖ held (ctx w) = live_of_log (log w ++ cleanup_calls (ctx w))).
    { destruct (ctx w) as [h|]; simpl.
      - by rewrite live_of_log_snoc, H.
      - by rewrite app_nil_r, difference_empty_L. }
    destruct (query p region) as [[el|]|]; [destruct (callback p)|..]; simpl;
      rewrite ?app_assoc, ?live_of_log_snoc; simpl; by rewrite H1.
  - rewrite beforeSwap_eq. simpl. destruct (ctx w) as [h|]; [|exact H].
    simpl. by rewrite live_of_log_snoc, H.
Qed.

(** C1. For every region and every finite sequence of navigation-complete
    and navigation-about-to-start signals, whatever the lookup and the
    registration callback do at each step, the number of live scopes after
    the sequence is 0 or 1; the live scopes are the handles the log shows as
    returned by [gsap.context] and not reverted since, and they are the
    handles held by the slot. *)
Theorem at_most_one_live_scope (region : Selector) (sigs : list Signal) :
  let w := run region sigs init in
  (size (live w) = 0 ∨ size (live w) = 1) ∧
  live w = live_of_log (log w) ∧
  live w = held (ctx w).
Proof.
  intros w. subst w.
  destruct (Inv_run region sigs init Inv_init) as (Hl & _).
  split; [rewrite Hl; apply size_held|].
  split; [by apply live_run_of_log | exact Hl].
Qed.

(** C2. On a navigation-complete signal the coordinator, in this order,
    reverts the scope in the slot if there is one, looks the region root up,
    and then: if the root is absent it stops with the slot empty (IDLE);
    otherwise it opens exactly one scope, whose handle is new, stores it in
    the slot and ends in ACTIVE with that scope as the only live one. *)
Theorem page_load_transition (region : Selector) (p : Page) (w : World) :
  Inv w →
  let w' := snd (initAnimations region p w) in
  (query p region = Normal None →
     fst (initAnimations region p w) = Normal tt ∧
     log w' = log w ++ cleanup_calls (ctx w) ++ [CallQuerySelector region] ∧
     state_of w' = IDLE ∧
     live w' = ∅) ∧
  (∀ el, query p region = Normal (Some el) → callback p = Normal tt →
     ∃ h, (h ∉ issued (log w)) ∧
          fst (initAnimations region p w) = Normal tt ∧
          log w' = log w ++ cleanup_calls (ctx w) ++
                   [CallQuerySelector region; CallContext el (Normal h)] ∧
          state_of w' = ACTIVE h ∧
          live w' = {[h]}).
Proof.
  intros (Hl & Hs & Hi) w'. subst w'. rewrite initAnimations_eq. cbn zeta. split.
  - intros ->. simpl. repeat split. rewrite Hl. apply difference_diag_L.
  - intros el -> ->. exists (next w). simpl. repeat split.
    + intros H. apply Hi in H. lia.
    + by rewrite <- !app_assoc.
    + rewrite Hl, difference_diag_L. apply union_empty_r_L.
Qed.

Lemma page_load_transition_witness :
  let w := run "#my-section" [PageLoad (page_with "#my-section" 7)] init in
  let w' := snd (initAnimations "#my-section" (page_with "#my-section" 8) w) in
  ∃ h, (h ∉ issued (log w)) ∧
       fst (initAnimations "#my-section" (page_with "#my-section" 8) w) = Normal tt ∧
       log w' = log w ++ cleanup_calls (ctx w) ++
                [CallQuerySelector "#my-section"; CallContext 8 (Normal h)] ∧
       state_of w' = ACTIVE h ∧
       live w' = {[h]}.
Proof.
  intros w w'.
  apply (page_load_transition "#my-section" (page_with "#my-section" 8) w).
  - apply Inv_run, Inv_init.
  - reflexivity.
  - reflexivity.
Defined.

(** C3, as the code has it.  Starting from the empty slot, the sequence
    navigation-complete, navigation-about-to-start, navigation-complete with
    the region root resolving and the registration returning on both pages
    ends with exactly one live handle, held by the slot; over the whole run
    exactly one revert call and exactly two open calls have occurred. *)
Theorem away_and_back (region : Selector) (p1 p2 : Page) (el1 el2 : Element) :
  query p1 region = Normal (Some el1) → callback p1 = Normal tt →
  query p2 region = Normal (Some el2) → callback p2 = Normal tt →
  let w := run region [PageLoad p1; BeforeSwap; PageLoad p2] init in
  log w = [CallQuerySelector region; CallContext el1 (Normal 0); CallRevert 0;
           CallQuerySelector region; CallContext el2 (Normal 1)] ∧
  state_of w = ACTIVE 1 ∧
  live w = {[1]} ∧
  size (live w) = 1 ∧
  reverts (log w) = 1 ∧
  opens (log w) = 2.
Proof.
  intros Hq1 Hc1 Hq2 Hc2. simpl. unfold dispatch. simpl.
  rewrite !initAnimations_eq, beforeSwap_eq. cbn zeta.
  rewrite Hq1, Hc1. simpl. rewrite Hq2, Hc2. simpl.
  repeat split.
Qed.

Lemma away_and_back_witness :
  let w := run "#my-section"
             [PageLoad (page_with "#my-section" 7); BeforeSwap;
              PageLoad (page_with "#my-section" 7)] init in
  log w = [CallQuerySelector "#my-section"; CallContext 7 (Normal 0); CallRevert 0;
           CallQuerySelector "#my-section"; CallContext 7 (Normal 1)] ∧
  state_of w = ACTIVE 1 ∧
  live w = {[1]} ∧
  size (live w) = 1 ∧
  reverts (log w) = 1 ∧
  opens (log w) = 2.
Proof.
  apply (away_and_back "#my-section" (page_with "#my-section" 7)
           (page_with "#my-section" 7) 7 7); reflexivity.
Defined.

(** C3, as the spec states it, fails: on the navigate-away-and-back run the
    code makes one revert call, not two. *)
Lemma away_and_back_two_reverts_fails :
  ¬ (let w := run "#my-section"
                [PageLoad (page_with "#my-section" 7); BeforeSwap;
                 PageLoad (page_with "#my-section" 7)] init in
     size (live w) = 1 ∧ reverts (log w) = 2 ∧ opens (log w) = 2).
Proof.
  intros (_ & H & _). vm_compute in H. discriminate H.
Qed.

(** C4. In [initAnimations] the clean-up block runs before the lookup and
    the open on every invocation, the first one with its empty slot
    included: the routine is the [astro:before-swap] clean-up followed by
    the mount, and every revert call of an invocation precedes its lookup.
    Hence running the routine twice in a row on the same page ends like
    running it once: same completion, same slot shape, same number of live
    scopes, the live scopes being those of the slot. *)
Theorem page_load_twice_as_once (region : Selector) (p : Page) (w : World) :
  Inv w →
  let once := snd (initAnimations region p w) in
  let twice := snd (initAnimations region p once) in
  initAnimations region p w = mount region p (snd (beforeSwap w)) ∧
  (∃ rest, log once = log w ++ cleanup_calls (ctx w) ++ CallQuerySelector region :: rest ∧
           reverts rest = 0) ∧
  fst (initAnimations region p once) = fst (initAnimations region p w) ∧
  occupied twice = occupied once ∧
  size (live twice) = size (live once) ∧
  live once = held (ctx once) ∧
  live twice = held (ctx twice).
Proof.
  intros HI once twice.
  assert (H1 : Inv once) by (by apply Inv_initAnimations).
  assert (H2 : Inv twice) by (by apply Inv_initAnimations).
  assert (Hshape : fst (initAnimations region p once) = fst (initAnimations region p w) ∧
                   occupied twice = occupied once).
  { subst twice once. rewrite !initAnimations_eq. cbn zeta.
    destruct (query p region) as [[el|]|]; [destruct (callback p)|..]; simpl;
      rewrite ?initAnimations_eq; by split. }
  destruct Hshape as [Hfst Hocc], H1 as (Hl1 & _), H2 as (Hl2 & _).
  split; [apply initAnimations_cleanup_then_mount|].
  split.
  { subst once. rewrite initAnimations_eq. cbn zeta.
    destruct (query p region) as [[el|]|]; [destruct (callback p)|..]; simpl;
      rewrite <- ?app_assoc; simpl; eexists; (split; [reflexivity|reflexivity]). }
  repeat split; try done.
  rewrite Hl1, Hl2. unfold occupied in Hocc.
  destruct (ctx twice), (ctx once); try discriminate; cbn [held];
    by rewrite ?size_singleton, ?size_empty.
Qed.

Lemma page_load_twice_as_once_witness :
  let p := page_with "#my-section" 7 in
  let once := snd (initAnimations "#my-section" p init) in
  let twice := snd (initAnimations "#my-section" p once) in
  occupied twice = occupied once ∧ size (live twice) = size (live once).
Proof.
  intros p once twice.
  destruct (page_load_twice_as_once "#my-section" p init Inv_init)
    as (_ & _ & _ & Hocc & Hsize & _).
  split; [exact Hocc | exact Hsize].
Defined.

(** C5. Revert is idempotent: running the before-swap clean-up twice in a
    row ends exactly like running it once; on an empty slot (a null handle)
    the clean-up is a no-op; and reverting a handle that was already
    reverted leaves the slot and the library as they were. *)
Theorem revert_idempotent (w : World) (h : Handle) :
  beforeSwap (snd (beforeSwap w)) = beforeSwap w ∧
  beforeSwap {| ctx := None; live := live w; next := next w; log := log w |} =
    (Normal tt, {| ctx := None; live := live w; next := next w; log := log w |}) ∧
  (let w1 := snd (Context_revert h w) in
   let w2 := snd (Context_revert h w1) in
   ctx w2 = ctx w1 ∧ live w2 = live w1 ∧ next w2 = next w1).
Proof.
  split; [|split].
  - rewrite (beforeSwap_eq (snd (beforeSwap w))), beforeSwap_ctx.
    rewrite (beforeSwap_eq w). reflexivity.
  - reflexivity.
  - simpl. repeat split. apply set_eq. intros x.
    rewrite !elem_of_difference. tauto.
Qed.

(** C6. A navigation-complete signal on a page where the region root does
    not resolve: the handler returns normally (no exception), makes no open
    call, and leaves the slot empty (IDLE); the only change to the library
    is the revert of the scope the slot held. *)
Theorem absent_region_safe (region : Selector) (p : Page) (w : World) :
  query p region = Normal None →
  let w' := snd (initAnimations region p w) in
  fst (initAnimations region p w) = Normal tt ∧
  opens (log w') = opens (log w) ∧
  state_of w' = IDLE ∧
  live w' = live w ∖ held (ctx w).
Proof.
  intros Hq. rewrite initAnimations_eq. cbn zeta. rewrite Hq. simpl.
  repeat split.
  by rewrite !opens_app, opens_cleanup_calls.
Qed.

Lemma absent_region_safe_witness :
  let w := run "#my-section" [PageLoad (page_with "#my-section" 7)] init in
  let w' := snd (initAnimations "#my-section" page_without w) in
  fst (initAnimations "#my-section" page_without w) = Normal tt ∧
  opens (log w') = opens (log w) ∧
  state_of w' = IDLE ∧
  live w' = live w ∖ held (ctx w).
Proof.
  apply (absent_region_safe "#my-section" page_without
           (run "#my-section" [PageLoad (page_with "#my-section" 7)] init)).
  reflexivity.
Defined.

(** C8. In [initAnimations] the slot is emptied right after the old scope
    is reverted, before the lookup and the open: the lookup and the open
    start from the world the clean-up left, whose slot is empty.  So when
    the invocation throws, in the lookup or in the open, the slot is empty
    afterwards and holds no reverted handle. *)
Theorem throw_leaves_slot_empty (region : Selector) (p : Page) (w : World) :
  fst (initAnimations region p w) = Throw →
  initAnimations region p w = mount region p (snd (beforeSwap w)) ∧
  ctx (snd (beforeSwap w)) = None ∧
  log (snd (beforeSwap w)) = log w ++ cleanup_calls (ctx w) ∧
  ctx (snd (initAnimations region p w)) = None ∧
  live (snd (initAnimations region p w)) = live w ∖ held (ctx w).
Proof.
  intros H.
  split; [apply initAnimations_cleanup_then_mount|].
  split; [apply beforeSwap_ctx|].
  split; [apply beforeSwap_log|].
  revert H. rewrite initAnimations_eq. cbn zeta.
  destruct (query p region) as [[el|]|]; [destruct (callback p)|..]; simpl;
    intros H; try discriminate H; by split.
Qed.

Lemma throw_leaves_slot_empty_witness :
  let w := run "#my-section" [PageLoad (page_with "#my-section" 7)] init in
  ctx w = Some 0 ∧
  ctx (snd (initAnimations "#my-section" (page_failing "#my-section" 7) w)) = None ∧
  ctx (snd (initAnimations "#my-section" page_broken w)) = None.
Proof.
  split; [reflexivity|]. split.
  - apply (throw_leaves_slot_empty "#my-section" (page_failing "#my-section" 7)
             (run "#my-section" [PageLoad (page_with "#my-section" 7)] init)).
    reflexivity.
  - apply (throw_leaves_slot_empty "#my-section" page_broken
             (run "#my-section" [PageLoad (page_with "#my-section" 7)] init)).
    reflexivity.
Defined.

(** ** Bracketing of open and revert calls in the log *)

Lemma bracket_app (cur : option Handle) (l1 l2 : list Call) :
  bracket cur (l1 ++ l2) =
  match bracket cur l1 with
  | Some cur' => bracket cur' l2
  | None => None
  end.
Proof.
  revert cur. induction l1 as [|c l1 IH]; intros cur; [reflexivity|].
  destruct c as [h|sel|el r]; simpl; try apply IH.
  destruct cur; [reflexivity | apply IH].
Qed.

Lemma bracket_open_then_open (h1 : Handle) (l2 l3 : list Call)
    (el2 : Element) (r2 : Completion Handle) (cur : option Handle) :
  bracket (Some h1) (l2 ++ CallContext el2 r2 :: l3) = Some cur →
  CallRevert h1 ∈ l2.
Proof.
  induction l2 as [|c l2 IH]; simpl; [discriminate|].
  destruct c as [h|sel|el r]; simpl.
  - destruct (decide (h = h1)) as [->|Hne].
    + intros _. apply list_elem_of_here.
    + intros H. apply list_elem_of_further, IH, H.
  - intros H. apply list_elem_of_further, IH, H.
  - discriminate.
Qed.

Lemma bracket_beforeSwap (w : World) (cur : option Handle) :
  bracket cur (log w) = Some (ctx w) →
  bracket cur (log (snd (beforeSwap w))) = Some None.
Proof.
  intros H. rewrite beforeSwap_log, bracket_app, H.
  destruct (ctx w) as [h|]; simpl; [|reflexivity].
  by rewrite decide_True.
Qed.

Lemma bracket_mount (region : Selector) (p : Page) (w : World) (cur : option Handle) :
  bracket cur (log w) = Some None → ctx w = None →
  bracket cur (log (snd (mount region p w))) = Some (ctx (snd (mount region p w))).
Proof.
  intros H Hc. rewrite mount_eq. cbn zeta.
  destruct (query p region) as [[el|]|]; [destruct (callback p)|..]; simpl;
    rewrite ?bracket_app, H; simpl; by rewrite ?bracket_app, ?H, ?Hc.
Qed.

Lemma bracket_run (region : Selector) (sigs : list Signal) (w : World)
    (cur : option Handle) :
  bracket cur (log w) = Some (ctx w) →
  bracket cur (log (run region sigs w)) = Some (ctx (run region sigs w)).
Proof.
  revert w. induction sigs as [|s sigs IH]; intros w H; [exact H|].
  simpl. apply IH. unfold dispatch. destruct s as [p|]; simpl.
  - rewrite initAnimations_cleanup_then_mount.
    apply bracket_mount; [by apply bracket_beforeSwap | apply beforeSwap_ctx].
  - rewrite beforeSwap_ctx. by apply bracket_beforeSwap.
Qed.

(** C7. In every run of the coordinator, between a call of [gsap.context]
    that returned a scope and any later call of [gsap.context] the earlier
    scope is reverted. *)
Theorem no_open_without_revert (region : Selector) (sigs : list Signal)
    (l1 l2 l3 : list Call) (el1 el2 : Element) (h1 : Handle)
    (r2 : Completion Handle) :
  log (run region sigs init) =
    l1 ++ CallContext el1 (Normal h1) :: l2 ++ CallContext el2 r2 :: l3 →
  CallRevert h1 ∈ l2.
Proof.
  intros Hlog.
  pose proof (bracket_run region sigs init None eq_refl) as H.
  rewrite Hlog, bracket_app in H.
  destruct (bracket None l1) as [[h|]|]; simpl in H; try discriminate H.
  by apply bracket_open_then_open in H.
Qed.

Lemma no_open_without_revert_witness :
  CallRevert 0 ∈ [CallRevert 0; CallQuerySelector "#my-section"].
Proof.
  apply (no_open_without_revert "#my-section"
           [PageLoad (page_with "#my-section" 7); BeforeSwap;
            PageLoad (page_with "#my-section" 7)]
           [CallQuerySelector "#my-section"]
           [CallRevert 0; CallQuerySelector "#my-section"] [] 7 7 0 (Normal 1)).
  reflexivity.
Defined.

(** ** The brand records *)

(** C10, as the code has it.  The brand configuration module is pure data:
    evaluating it makes no call, assigns nothing outside the module and does
    not throw.  Every exported brand record is a value of type
    [BrandConfig] that supplies its name and contact information (phone,
    email, address).  The geo-coordinates and the schema metadata are
    optional fields of the type: the Queens Auto Service record supplies all
    of them, the Queens Mobile Tires record supplies none of them. *)
Theorem brand_records_supply (b : BrandConfig) :
  b ∈ exported_brands →
  (∀ w, evaluate_module b w = (Normal b, w)) ∧
  supplies_identity b = true ∧
  (supplies_geo b = true ∧ supplies_schema b = true ↔
   b = QueensAutoService.mobileTiresBrand) ∧
  (supplies_geo QueensAutoService.mobileTiresBrand = true ∧
   supplies_schema QueensAutoService.mobileTiresBrand = true) ∧
  (latitude QueensMobileTires.mobileTiresBrand = None ∧
   longitude QueensMobileTires.mobileTiresBrand = None) ∧
  (schemaName QueensMobileTires.mobileTiresBrand = None ∧
   streetAddress QueensMobileTires.mobileTiresBrand = None ∧
   addressLocality QueensMobileTires.mobileTiresBrand = None ∧
   addressRegion QueensMobileTires.mobileTiresBrand = None ∧
   postalCode QueensMobileTires.mobileTiresBrand = None ∧
   ratingValue QueensMobileTires.mobileTiresBrand = None ∧
   reviewCount QueensMobileTires.mobileTiresBrand = None).
Proof.
  unfold exported_brands. rewrite !elem_of_cons, elem_of_nil.
  intros Hb. split; [reflexivity|].
  assert (Hrest : supplies_identity b = true ∧
                  (supplies_geo b = true ∧ supplies_schema b = true ↔
                   b = QueensAutoService.mobileTiresBrand)).
  { destruct Hb as [-> | [-> | []]].
    - split; [reflexivity|]. split; [reflexivity | by split].
    - split; [reflexivity|]. split; [intros [H _]; discriminate H | discriminate]. }
  destruct Hrest as [Hid Hiff].
  split; [exact Hid|]. split; [exact Hiff|].
  split; [by split|]. split; [by split|]. repeat split.
Qed.

Lemma brand_records_supply_witness :
  (∀ w, evaluate_module QueensMobileTires.mobileTiresBrand w =
        (Normal QueensMobileTires.mobileTiresBrand, w)) ∧
  supplies_identity QueensMobileTires.mobileTiresBrand = true.
Proof.
  destruct (brand_records_supply QueensMobileTires.mobileTiresBrand)
    as (Hev & Hid & _).
  - unfold exported_brands. apply list_elem_of_further, list_elem_of_here.
  - split; [exact Hev | exact Hid].
Defined.

(** C10, as the spec states it, fails: the Queens Mobile Tires record
    supplies neither geo-coordinates nor schema metadata. *)
Lemma brand_records_geo_schema_fails :
  ¬ (∀ b, b ∈ exported_brands →
          supplies_identity b = true ∧ supplies_geo b = true ∧
          supplies_schema b = true).
Proof.
  intros H.
  destruct (H QueensMobileTires.mobileTiresBrand) as (_ & Hgeo & _).
  - unfold exported_brands. apply list_elem_of_further, list_elem_of_here.
  - discriminate Hgeo.
Qed.

(** ** The ledger of opens and reverts *)

Lemma beforeSwap_twice (w : World) :
  snd (beforeSwap (snd (beforeSwap w))) = snd (beforeSwap w).
Proof.
  rewrite (beforeSwap_eq (snd (beforeSwap w))), beforeSwap_ctx. reflexivity.
Qed.

Lemma run_app (region : Selector) (s1 s2 : list Signal) (w : World) :
  run region (s1 ++ s2) w = run region s2 (run region s1 w).
Proof. unfold run. apply fold_left_app. Qed.

Lemma reverted_app (l1 l2 : list Call) :
  reverted (l1 ++ l2) = reverted l1 ++ reverted l2.
Proof.
  induction l1 as [|c l1 IH]; [done|].
  destruct c as [h|sel|el r]; simpl; by rewrite ?IH.
Qed.

Lemma reverts_reverted (l : list Call) : reverts l = length (reverted l).
Proof.
  unfold reverts. induction l as [|c l IH]; [done|].
  destruct c as [h|sel|el r]; simpl; by rewrite ?IH.
Qed.

Lemma lookups_app (l1 l2 : list Call) : lookups (l1 ++ l2) = lookups l1 + lookups l2.
Proof. unfold lookups. by rewrite List.filter_app, length_app. Qed.

Lemma Ledger_init : Ledger init.
Proof.
  split; [apply NoDup_nil_2|]. split; [|split; [|reflexivity]].
  - intros h H. by apply elem_of_nil in H.
  - intros h H. discriminate H.
Qed.

Lemma Ledger_beforeSwap (w : World) : Ledger w → Ledger (snd (beforeSwap w)).
Proof.
  intros (Hnd & Hlt & Hs & Hlen). rewrite beforeSwap_eq. cbn [snd].
  unfold occupied in Hlen.
  destruct (ctx w) as [h|] eqn:Hc.
  2:{ unfold Ledger, occupied. rewrite Hc. tauto. }
  destruct (Hs h eq_refl) as [Hh Hfresh].
  unfold Ledger, occupied. cbn [log ctx next].
  rewrite reverted_app, issued_app. cbn [reverted issued].
  repeat split.
  - apply NoDup_app. repeat split; [done| |apply NoDup_singleton].
    intros x Hx ->%list_elem_of_singleton. contradiction.
  - intros x [Hx | ->%list_elem_of_singleton]%elem_of_app; [by apply Hlt | done].
  - discriminate.
  - discriminate.
  - rewrite app_nil_r, length_app. simpl. lia.
Qed.

Lemma Ledger_mount (region : Selector) (p : Page) (w : World) :
  Ledger w → ctx w = None → Ledger (snd (mount region p w)).
Proof.
  intros (Hnd & Hlt & Hs & Hlen) Hc. rewrite mount_eq. cbn zeta.
  unfold occupied in Hlen. rewrite Hc in Hlen.
  assert (Hr : reverted (log w ++ [CallQuerySelector region]) = reverted (log w))
    by (by rewrite reverted_app, app_nil_r).
  assert (Hi : issued (log w ++ [CallQuerySelector region]) = issued (log w))
    by (by rewrite issued_app, app_nil_r).
  destruct (query p region) as [[el|]|]; [destruct (callback p)|..];
    cbn [snd]; unfold Ledger, occupied; cbn [log ctx next];
    rewrite ?reverted_app, ?issued_app; cbn [reverted issued];
    rewrite ?app_nil_r, ?Hc; repeat split; try done.
  - intros x Hx. apply Hlt in Hx. lia.
  - simplify_eq. lia.
  - simplify_eq. intros Hx. apply Hlt in Hx. lia.
  - rewrite length_app. simpl. lia.
Qed.

Lemma Ledger_run (region : Selector) (sigs : list Signal) (w : World) :
  Ledger w → Ledger (run region sigs w).
Proof.
  revert w. induction sigs as [|s sigs IH]; intros w H; [exact H|].
  simpl. apply IH. unfold dispatch. destruct s as [p|]; simpl.
  - rewrite initAnimations_cleanup_then_mount.
    apply Ledger_mount; [by apply Ledger_beforeSwap | apply beforeSwap_ctx].
  - by apply Ledger_beforeSwap.
Qed.

Lemma Settled_init : Settled init.
Proof. intros h H. by apply elem_of_nil in H. Qed.

Lemma Settled_beforeSwap (w : World) : Settled w → Settled (snd (beforeSwap w)).
Proof.
  intros HS h. rewrite beforeSwap_log, beforeSwap_ctx, issued_app, reverted_app.
  rewrite issued_cleanup_calls, app_nil_r. intros Hh. left.
  apply elem_of_app. destruct (HS h Hh) as [Hr | Hc]; [by left|].
  right. rewrite Hc. apply list_elem_of_here.
Qed.

Lemma Settled_mount (region : Selector) (p : Page) (w : World) :
  Settled w → ctx w = None → Settled (snd (mount region p w)).
Proof.
  intros HS Hc h. rewrite mount_eq. cbn zeta.
  assert (Hold : h ∈ issued (log w) → h ∈ reverted (log w)).
  { intros Hh. destruct (HS h Hh) as [Hr | E]; [exact Hr | congruence]. }
  destruct (query p region) as [[el|]|]; [destruct (callback p)|..];
    cbn [snd log ctx]; rewrite ?issued_app, ?reverted_app; cbn [issued reverted];
    rewrite ?app_nil_r; try (intros Hh; left; by apply Hold).
  intros [Hh | ->%list_elem_of_singleton]%elem_of_app; [left; by apply Hold | by right].
Qed.

Lemma Settled_run (region : Selector) (sigs : list Signal) (w : World) :
  Settled w → Settled (run region sigs w).
Proof.
  revert w. induction sigs as [|s sigs IH]; intros w H; [exact H|].
  simpl. apply IH. unfold dispatch. destruct s as [p|]; simpl.
  - rewrite initAnimations_cleanup_then_mount.
    apply Settled_mount; [by apply Settled_beforeSwap | apply beforeSwap_ctx].
  - by apply Settled_beforeSwap.
Qed.

(** X1. For signal sequences in which every registration callback returns
    (the lookup may find the root, miss it or throw): once the
    [astro:before-swap] listener has run as the last signal, the slot is
    empty, no scope is live, and every scope the log shows as returned by
    [gsap.context] has been reverted. *)
Theorem before_swap_leaves_nothing_live (region : Selector) (sigs : list Signal) :
  forallb registration_returns sigs = true →
  let w := run region (sigs ++ [BeforeSwap]) init in
  state_of w = IDLE ∧ live w = ∅ ∧ live_of_log (log w) = ∅.
Proof.
  intros _ w.
  assert (Hlog : live w = live_of_log (log w)) by (by apply live_run_of_log).
  assert (Hw : state_of w = IDLE ∧ live w = ∅).
  { subst w. rewrite run_app. simpl. unfold dispatch. simpl.
    destruct (Inv_beforeSwap _ (Inv_run region sigs init Inv_init)) as (Hl & _).
    unfold state_of. rewrite Hl, beforeSwap_ctx. by split. }
  destruct Hw as [Hs Hl]. split; [exact Hs|]. split; [exact Hl|].
  by rewrite <- Hlog.
Qed.

Lemma before_swap_leaves_nothing_live_witness :
  let w := run "#my-section"
             ([PageLoad (page_with "#my-section" 7); PageLoad page_broken;
               PageLoad (page_with "#my-section" 8)] ++ [BeforeSwap]) init in
  state_of w = IDLE ∧ live w = ∅ ∧ live_of_log (log w) = ∅.
Proof.
  apply (before_swap_leaves_nothing_live "#my-section"
           [PageLoad (page_with "#my-section" 7); PageLoad page_broken;
            PageLoad (page_with "#my-section" 8)]).
  reflexivity.
Defined.

(** X2. In every run no opened scope is dropped without a revert: every
    handle [gsap.context] has returned is named by a revert call or is the
    handle held in the slot, and the number of handles returned equals the
    number of revert calls plus one when the slot holds a handle, plus zero
    when it is empty. *)
Theorem every_scope_accounted_for (region : Selector) (sigs : list Signal) :
  let w := run region sigs init in
  (∀ h, h ∈ issued (log w) → h ∈ reverted (log w) ∨ ctx w = Some h) ∧
  length (issued (log w)) = reverts (log w) + (if occupied w then 1 else 0).
Proof.
  intros w. subst w. split.
  - exact (Settled_run region sigs init Settled_init).
  - destruct (Ledger_run region sigs init Ledger_init) as (_ & _ & _ & Hlen).
    by rewrite reverts_reverted.
Qed.

(** X3. In every run no scope is reverted twice: the handles of the revert
    calls in the log are pairwise distinct, and the handle left in the slot
    is not among them. *)
Theorem no_scope_reverted_twice (region : Selector) (sigs : list Signal) :
  let w := run region sigs init in
  NoDup (reverted (log w)) ∧ ∀ h, ctx w = Some h → h ∉ reverted (log w).
Proof.
  intros w. subst w.
  destruct (Ledger_run region sigs init Ledger_init) as (Hnd & _ & Hs & _).
  split; [exact Hnd|]. intros h H. by apply Hs.
Qed.

(** ** The log follows the open/revert protocol *)

Lemma protocol_app (cur : option Handle) (l1 l2 : list Call) :
  protocol cur (l1 ++ l2) =
  match protocol cur l1 with
  | Some cur' => protocol cur' l2
  | None => None
  end.
Proof.
  revert cur. induction l1 as [|c l1 IH]; intros cur; [reflexivity|].
  destruct c as [h|sel|el r]; simpl.
  - destruct cur as [h'|]; [|reflexivity]. destruct (decide (h = h')); [apply IH | reflexivity].
  - destruct cur; [reflexivity | apply IH].
  - destruct cur; [reflexivity | apply IH].
Qed.

Lemma protocol_beforeSwap (w : World) :
  protocol None (log w) = Some (ctx w) →
  protocol None (log (snd (beforeSwap w))) = Some None.
Proof.
  intros H. rewrite beforeSwap_log, protocol_app, H.
  destruct (ctx w) as [h|]; simpl; [|reflexivity].
  by rewrite decide_True.
Qed.

Lemma protocol_mount (region : Selector) (p : Page) (w : World) :
  protocol None (log w) = Some None → ctx w = None →
  protocol None (log (snd (mount region p w))) = Some (ctx (snd (mount region p w))).
Proof.
  intros H Hc. rewrite mount_eq. cbn zeta.
  destruct (query p region) as [[el|]|]; [destruct (callback p)|..]; simpl;
    rewrite ?protocol_app, H; simpl; by rewrite ?protocol_app, ?H, ?Hc.
Qed.

Lemma protocol_run (region : Selector) (sigs : list Signal) (w : World) :
  protocol None (log w) = Some (ctx w) →
  protocol None (log (run region sigs w)) = Some (ctx (run region sigs w)).
Proof.
  revert w. induction sigs as [|s sigs IH]; intros w H; [exact H|].
  simpl. apply IH. unfold dispatch. destruct s as [p|]; simpl.
  - rewrite initAnimations_cleanup_then_mount.
    apply protocol_mount; [by apply protocol_beforeSwap | apply beforeSwap_ctx].
  - rewrite beforeSwap_ctx. by apply protocol_beforeSwap.
Qed.

(** In a log the protocol accepts, a revert names either the scope that was
    open at the start, as the first call, or the scope of the open made just
    before it. *)
Lemma protocol_revert_after_open (l1 l2 : list Call) (h : Handle)
    (cur cur' : option Handle) :
  protocol cur (l1 ++ CallRevert h :: l2) = Some cur' →
  (cur = Some h ∧ l1 = []) ∨
  (∃ l0 el, l1 = l0 ++ [CallContext el (Normal h)]).
Proof.
  revert cur. induction l1 as [|c l1 IH]; intros cur; simpl.
  - destruct cur as [h'|]; [|discriminate].
    destruct (decide (h = h')) as [->|]; [|discriminate].
    intros _. left. by split.
  - destruct c as [h0|sel|el r].
    + destruct cur as [h'|]; [|discriminate].
      destruct (decide (h0 = h')); [|discriminate].
      intros H. apply IH in H as [[? _] | (l0 & el & ->)]; [discriminate|].
      right. by exists (CallRevert h0 :: l0), el.
    + destruct cur; [discriminate|].
      intros H. apply IH in H as [[? _] | (l0 & el & ->)]; [discriminate|].
      right. by exists (CallQuerySelector sel :: l0), el.
    + destruct cur; [discriminate|].
      intros H. apply IH in H as [[Hr ->] | (l0 & el' & ->)].
      * right. exists [], el. destruct r; [|discriminate].
        by injection Hr as ->.
      * right. by exists (CallContext el r :: l0), el'.
Qed.

(** X4. In every run, a revert call is always the very next call the
    component makes after the [gsap.context] call that returned the scope it
    reverts: the component never reverts a scope it did not open, and makes
    no lookup and no other open while a scope is in the slot. *)
Theorem revert_follows_its_open (region : Selector) (sigs : list Signal)
    (l1 l2 : list Call) (h : Handle) :
  log (run region sigs init) = l1 ++ CallRevert h :: l2 →
  ∃ l0 el, l1 = l0 ++ [CallContext el (Normal h)].
Proof.
  intros Hlog.
  pose proof (protocol_run region sigs init eq_refl) as H.
  rewrite Hlog in H.
  apply protocol_revert_after_open in H as [[? _] | H]; [discriminate | exact H].
Qed.

Lemma revert_follows_its_open_witness :
  ∃ l0 el,
    [CallQuerySelector "#my-section"; CallContext 7 (Normal 0)] =
    l0 ++ [CallContext el (Normal 0)].
Proof.
  apply (revert_follows_its_open "#my-section"
           [PageLoad (page_with "#my-section" 7); PageLoad page_without]
           [CallQuerySelector "#my-section"; CallContext 7 (Normal 0)]
           [CallQuerySelector "#my-section"] 0).
  reflexivity.
Defined.

(** X5. In every run, each [astro:page-load] makes exactly one lookup, for
    the component's own selector, and at most one open; the
    [astro:before-swap] listener makes neither. *)
Theorem one_lookup_per_page_load (region : Selector) (sigs : list Signal) :
  let w := run region sigs init in
  lookups (log w) = page_loads sigs ∧
  (opens (log w) ≤ page_loads sigs)%nat ∧
  ∀ sel, CallQuerySelector sel ∈ log w → sel = region.
Proof.
  intros w. subst w.
  cut (∀ w, lookups (log (run region sigs w)) = lookups (log w) + page_loads sigs ∧
            (opens (log (run region sigs w)) ≤ opens (log w) + page_loads sigs)%nat ∧
            ((∀ sel, CallQuerySelector sel ∈ log w → sel = region) →
             ∀ sel, CallQuerySelector sel ∈ log (run region sigs w) → sel = region)).
  { intros H. destruct (H init) as (H1 & H2 & H3).
    split; [exact H1|]. split; [exact H2|]. apply H3.
    intros sel Hin. by apply elem_of_nil in Hin. }
  induction sigs as [|s sigs IH]; intros w.
  { simpl. unfold page_loads. simpl. split; [lia|]. split; [lia|]. auto. }
  simpl. destruct (IH (dispatch region w s)) as (H1 & H2 & H3).
  assert (Hstep : lookups (log (dispatch region w s))
                    = lookups (log w) + (if is_page_load s then 1 else 0) ∧
                  (opens (log (dispatch region w s))
                    ≤ opens (log w) + (if is_page_load s then 1 else 0))%nat ∧
                  ((∀ sel, CallQuerySelector sel ∈ log w → sel = region) →
                   ∀ sel, CallQuerySelector sel ∈ log (dispatch region w s) → sel = region)).
  { unfold dispatch. destruct s as [p|]; simpl.
    - rewrite initAnimations_eq. cbn zeta.
      assert (Hc : lookups (cleanup_calls (ctx w)) = 0) by (by destruct (ctx w)).
      assert (Hm : ∀ sel, CallQuerySelector sel ∈ cleanup_calls (ctx w) → sel = region).
      { intros sel. destruct (ctx w); simpl.
        - rewrite list_elem_of_singleton. discriminate.
        - intros Hin. by apply elem_of_nil in Hin. }
      destruct (query p region) as [[el|]|]; [destruct (callback p)|..]; simpl;
        rewrite ?lookups_app, ?opens_app, ?opens_cleanup_calls, Hc;
        (split; [unfold lookups; simpl; lia|]); (split; [unfold opens; simpl; lia|]);
        intros Hw sel; rewrite ?elem_of_app, ?list_elem_of_singleton;
        intros Hin; decompose [or] Hin; auto; congruence.
    - rewrite beforeSwap_log, lookups_app, opens_app, opens_cleanup_calls.
      assert (Hc : lookups (cleanup_calls (ctx w)) = 0) by (by destruct (ctx w)).
      split; [lia|]. split; [lia|].
      intros Hw sel. rewrite elem_of_app. intros [Hin|Hin]; [by apply Hw|].
      destruct (ctx w); simpl in Hin.
      + apply list_elem_of_singleton in Hin. discriminate.
      + by apply elem_of_nil in Hin. }
  destruct Hstep as (S1 & S2 & S3).
  unfold page_loads in *. simpl. destruct s as [p|]; simpl in *.
  - split; [lia|]. split; [lia|]. auto.
  - split; [lia|]. split; [lia|]. auto.
Qed.

(** X6. An [astro:before-swap] directly followed by an [astro:page-load]
    leaves exactly the world (slot, library state and log of calls) the
    page-load alone leaves: the clean-up at the start of [initAnimations]
    makes the revert the before-swap listener would have made. *)
Theorem before_swap_absorbed_by_page_load (region : Selector) (p : Page)
    (sigs : list Signal) (w : World) :
  run region (BeforeSwap :: PageLoad p :: sigs) w = run region (PageLoad p :: sigs) w.
Proof.
  simpl. f_equal. unfold dispatch. simpl.
  rewrite !initAnimations_cleanup_then_mount, beforeSwap_twice. reflexivity.
Qed.

(** A live scope that is not in the slot is out of the listeners' reach. *)
Lemma leaked_stays_live (region : Selector) (sigs : list Signal) (h : Handle)
    (w : World) :
  h ∈ live w → ctx w ≠ Some h → h < next w → h ∈ live (run region sigs w).
Proof.
  revert w. induction sigs as [|s sigs IH]; intros w Hin Hne Hn; [exact Hin|].
  simpl. unfold dispatch. destruct s as [p|]; simpl.
  - rewrite initAnimations_eq. cbn zeta.
    assert (Hin' : h ∈ live w ∖ held (ctx w)).
    { apply elem_of_difference. split; [exact Hin|].
      destruct (ctx w) as [h'|]; cbn [held]; [|apply not_elem_of_empty].
      rewrite elem_of_singleton. congruence. }
    destruct (query p region) as [[el|]|]; [destruct (callback p)|..];
      cbn [snd]; apply IH; cbn [live ctx next]; try done; try lia.
    + apply elem_of_union_r, Hin'.
    + intros [= E]. lia.
  - rewrite beforeSwap_eq. cbn [snd].
    destruct (ctx w) as [h'|] eqn:E; apply IH; cbn [live ctx next];
      rewrite ?E; try done.
    apply elem_of_difference. split; [exact Hin|].
    rewrite elem_of_singleton. congruence.
Qed.

(** X7. The lookup-and-open part of [initAnimations] depends on the
    clean-up block before it.  Started on a slot that holds a scope, it
    overwrites the handle without reverting it: two scopes are live, and the
    overwritten one stays live through every later signal. *)
Theorem mount_on_occupied_slot_leaks (region : Selector) (p : Page) (w : World)
    (h : Handle) (el : Element) (sigs : list Signal) :
  Inv w → ctx w = Some h →
  query p region = Normal (Some el) → callback p = Normal tt →
  let w' := snd (mount region p w) in
  ctx w' = Some (next w) ∧
  live w' = {[next w; h]} ∧
  size (live w') = 2 ∧
  h ∈ live (run region sigs w').
Proof.
  intros (Hl & Hs & _) Hc Hq Hcb w'. subst w'.
  rewrite mount_eq. cbn zeta. rewrite Hq, Hcb. cbn [snd].
  pose proof (Hs h Hc) as Hlt.
  split; [reflexivity|]. cbn [live]. rewrite Hl, Hc. cbn [held].
  split; [reflexivity|]. split.
  - rewrite size_union by (apply disjoint_singleton_l; rewrite elem_of_singleton; lia).
    by rewrite !size_singleton.
  - apply leaked_stays_live; cbn [live ctx next].
    + apply elem_of_union_r, elem_of_singleton. reflexivity.
    + intros [= E]. lia.
    + lia.
Qed.

Lemma mount_on_occupied_slot_leaks_witness :
  let w := run "#my-section" [PageLoad (page_with "#my-section" 7)] init in
  let w' := snd (mount "#my-section" (page_with "#my-section" 7) w) in
  ctx w' = Some 1 ∧ live w' = {[1; 0]} ∧ size (live w') = 2 ∧
  0 ∈ live (run "#my-section"
              [BeforeSwap; PageLoad (page_with "#my-section" 7); BeforeSwap] w').
Proof.
  apply (mount_on_occupied_slot_leaks "#my-section" (page_with "#my-section" 7)
           (run "#my-section" [PageLoad (page_with "#my-section" 7)] init)
           0 7 [BeforeSwap; PageLoad (page_with "#my-section" 7); BeforeSwap]).
  - apply Inv_run, Inv_init.
  - reflexivity.
  - reflexivity.
  - reflexivity.
Defined.

(** ** Reveal animations *)

Lemma Qltb_lt (x y : Q) : Reveals.Qltb x y = true ↔ (x < y)%Q.
Proof.
  unfold Reveals.Qltb. rewrite negb_true_iff. split.
  - intros H. apply Qnot_le_lt. intros Hle. apply Qle_bool_iff in Hle. congruence.
  - intros Hlt. destruct (Qle_bool y x) eqn:E; [|reflexivity].
    apply Qle_bool_iff in E. exfalso. exact (Qlt_not_le _ _ Hlt E).
Qed.

Lemma isInViewport_spec (innerHeight : Q) (r : Reveals.DOMRect) :
  Reveals.isInViewport innerHeight r = true ↔
  (Reveals.top r < innerHeight ∧ 0 < Reveals.bottom r)%Q.
Proof.
  unfold Reveals.isInViewport. by rewrite andb_true_iff, !Qltb_lt.
Qed.

(** The calls [initReveals] makes for one element. *)
Lemma reveal_eq (innerHeight : Q) (calls : list Reveals.Effect) (n : Reveals.Node) :
  Reveals.reveal innerHeight calls n = calls ++ Reveals.reveal innerHeight [] n.
Proof.
  unfold Reveals.reveal. by destruct (Reveals.isInViewport innerHeight (Reveals.rect n)).
Qed.

Lemma initReveals_from (innerHeight : Q) (elements : list Reveals.Node)
    (calls : list Reveals.Effect) :
  Reveals.initReveals innerHeight elements calls =
  calls ++ Reveals.initReveals innerHeight elements [].
Proof.
  unfold Reveals.initReveals.
  revert calls. induction elements as [|n elements IH]; intros calls; simpl.
  - by rewrite app_nil_r.
  - rewrite IH, (IH (Reveals.reveal innerHeight [] n)), (reveal_eq _ calls n).
    by rewrite <- app_assoc.
Qed.

Lemma initReveals_cons (innerHeight : Q) (n : Reveals.Node)
    (elements : list Reveals.Node) (calls : list Reveals.Effect) :
  Reveals.initReveals innerHeight (n :: elements) calls =
  calls ++ Reveals.reveal innerHeight [] n ++ Reveals.initReveals innerHeight elements [].
Proof.
  change (Reveals.initReveals innerHeight (n :: elements) calls)
    with (Reveals.initReveals innerHeight elements (Reveals.reveal innerHeight calls n)).
  by rewrite initReveals_from, reveal_eq, <- app_assoc.
Qed.

Lemma hidden_app (l1 l2 : list Reveals.Effect) :
  Reveals.hidden (l1 ++ l2) = Reveals.hidden l1 ++ Reveals.hidden l2.
Proof.
  induction l1 as [|c l1 IH]; [done|]. destruct c; simpl; by rewrite ?IH.
Qed.

Lemma animated_app (l1 l2 : list Reveals.Effect) :
  Reveals.animated (l1 ++ l2) = Reveals.animated l1 ++ Reveals.animated l2.
Proof.
  induction l1 as [|c l1 IH]; [done|]. destruct c; simpl; by rewrite ?IH.
Qed.

Lemma observed_app (l1 l2 : list Reveals.Effect) :
  Reveals.observed (l1 ++ l2) = Reveals.observed l1 ++ Reveals.observed l2.
Proof.
  induction l1 as [|c l1 IH]; [done|]. destruct c; simpl; by rewrite ?IH.
Qed.

Lemma initReveals_lists (innerHeight : Q) (elements : list Reveals.Node) :
  let calls := Reveals.initReveals innerHeight elements [] in
  Reveals.hidden calls = map Reveals.target elements ∧
  Reveals.animated calls =
    map Reveals.target
      (List.filter (λ n, Reveals.isInViewport innerHeight (Reveals.rect n)) elements) ∧
  Reveals.observed calls =
    map Reveals.target
      (List.filter (λ n, negb (Reveals.isInViewport innerHeight (Reveals.rect n)))
         elements).
Proof.
  cbn zeta. induction elements as [|n elements (IH1 & IH2 & IH3)]; [done|].
  rewrite initReveals_cons, app_nil_l, hidden_app, animated_app, observed_app.
  rewrite IH1, IH2, IH3.
  unfold Reveals.reveal. simpl.
  by destruct (Reveals.isInViewport innerHeight (Reveals.rect n)).
Qed.

Lemma filter_split_length {A} (P : A → bool) (l : list A) :
  length (List.filter P l) + length (List.filter (λ x, negb (P x)) l) = length l.
Proof.
  induction l as [|x l IH]; [done|]. simpl. destruct (P x); simpl; lia.
Qed.

Lemma target_determines_node (elements : list Reveals.Node) (n m : Reveals.Node) :
  NoDup (map Reveals.target elements) → In n elements → In m elements →
  Reveals.target n = Reveals.target m → n = m.
Proof.
  induction elements as [|a elements IH]; simpl; [done|].
  intros Hnd Hn Hm E. apply NoDup_cons in Hnd as [Ha Hnd].
  rewrite list_elem_of_In in Ha.
  destruct Hn as [->|Hn], Hm as [->|Hm]; [done| | |by apply IH].
  - exfalso. apply Ha. rewrite E. by apply in_map.
  - exfalso. apply Ha. rewrite <- E. by apply in_map.
Qed.

Lemma in_map_target_filter (P : Reveals.Node → bool)
    (elements : list Reveals.Node) (n : Reveals.Node) :
  NoDup (map Reveals.target elements) → In n elements →
  In (Reveals.target n) (map Reveals.target (List.filter P elements)) ↔ P n = true.
Proof.
  intros Hnd Hn. rewrite in_map_iff. split.
  - intros (m & E & Hm). apply filter_In in Hm as [Hm HP].
    by rewrite (target_determines_node elements n m Hnd Hn Hm).
  - intros HP. exists n. split; [done|]. by apply filter_In.
Qed.

(** X8. [initReveals] hides every element of the node list exactly once, in
    node-list order; it starts the reveal tween for exactly the elements in
    the viewport and hands exactly the others to the observer, each list in
    node-list order, so every element gets one of the two.  On an empty node
    list it makes no call. *)
Theorem initReveals_partitions (innerHeight : Q) (elements : list Reveals.Node) :
  let calls := Reveals.initReveals innerHeight elements [] in
  Reveals.hidden calls = map Reveals.target elements ∧
  Reveals.animated calls =
    map Reveals.target
      (List.filter (λ n, Reveals.isInViewport innerHeight (Reveals.rect n)) elements) ∧
  Reveals.observed calls =
    map Reveals.target
      (List.filter (λ n, negb (Reveals.isInViewport innerHeight (Reveals.rect n)))
         elements) ∧
  length (Reveals.animated calls) + length (Reveals.observed calls) = length elements.
Proof.
  destruct (initReveals_lists innerHeight elements) as (H1 & H2 & H3). cbn zeta.
  split; [exact H1|]. split; [exact H2|]. split; [exact H3|].
  rewrite H2, H3, !length_map. apply filter_split_length.
Qed.

(** X9. Every [gsap.set] that hides an element is directly followed, for
    the same element, either by the forced reflow and the tween back to
    [opacity: 1] or by the registration with the observer: [initReveals]
    leaves no element hidden without a reveal on its way. *)
Theorem hide_is_followed_by_reveal (innerHeight : Q) (elements : list Reveals.Node)
    (l1 l2 : list Reveals.Effect) (el : Element) (o y : Z) :
  Reveals.initReveals innerHeight elements [] = l1 ++ Reveals.GsapSet el o y :: l2 →
  (∃ l3, l2 = Reveals.ForceReflow el :: Reveals.GsapTo el 1 0 (8 # 10) :: l3) ∨
  (∃ l3, l2 = Reveals.Observe el :: l3).
Proof.
  revert l1. induction elements as [|n elements IH]; intros l1.
  { destruct l1; discriminate. }
  rewrite initReveals_cons, app_nil_l. unfold Reveals.reveal.
  destruct (Reveals.isInViewport innerHeight (Reveals.rect n)); simpl.
  - destruct l1 as [|c1 l1]; simpl.
    { intros [= <- _ _ <-]. left. eauto. }
    intros [= _ H]. destruct l1 as [|c2 l1]; simpl in H; [discriminate H|].
    injection H as _ H. destruct l1 as [|c3 l1]; simpl in H; [discriminate H|].
    injection H as _ H. by apply IH in H.
  - destruct l1 as [|c1 l1]; simpl.
    { intros [= <- _ _ <-]. right. eauto. }
    intros [= _ H]. destruct l1 as [|c2 l1]; simpl in H; [discriminate H|].
    injection H as _ H. by apply IH in H.
Qed.

Lemma hide_is_followed_by_reveal_witness :
  (∃ l3, [Reveals.Observe 4] =
         Reveals.ForceReflow 4 :: Reveals.GsapTo 4 1 0 (8 # 10) :: l3) ∨
  (∃ l3, [Reveals.Observe 4] = Reveals.Observe 4 :: l3).
Proof.
  apply (hide_is_followed_by_reveal 800
           [Reveals.mkNode 3 (Reveals.mkDOMRect 100 300);
            Reveals.mkNode 4 (Reveals.mkDOMRect 800 950)]
           [Reveals.GsapSet 3 0 30; Reveals.ForceReflow 3;
            Reveals.GsapTo 3 1 0 (8 # 10)]
           [Reveals.Observe 4] 4 0 30).
  reflexivity.
Defined.

(** X10. Which of the two an element gets is decided by where its rectangle
    lies, with strict comparisons: on a node list of distinct elements, an
    element is animated at once exactly when its top is above the bottom
    edge of the window and its bottom is below the top edge; it is handed to
    the observer exactly when it lies below the fold or above the window,
    touching an edge included; never both. *)
Theorem reveal_decided_by_position (innerHeight : Q) (elements : list Reveals.Node)
    (n : Reveals.Node) :
  NoDup (map Reveals.target elements) → In n elements →
  let calls := Reveals.initReveals innerHeight elements [] in
  (In (Reveals.target n) (Reveals.animated calls) ↔
     (Reveals.top (Reveals.rect n) < innerHeight ∧
      0 < Reveals.bottom (Reveals.rect n))%Q) ∧
  (In (Reveals.target n) (Reveals.observed calls) ↔
     (innerHeight <= Reveals.top (Reveals.rect n) ∨
      Reveals.bottom (Reveals.rect n) <= 0)%Q) ∧
  ¬ (In (Reveals.target n) (Reveals.animated calls) ∧
     In (Reveals.target n) (Reveals.observed calls)).
Proof.
  intros Hnd Hn.
  destruct (initReveals_lists innerHeight elements) as (_ & H2 & H3). cbn zeta.
  rewrite H2, H3, !in_map_target_filter by done.
  rewrite negb_true_iff.
  destruct (Reveals.isInViewport innerHeight (Reveals.rect n)) eqn:E.
  - apply isInViewport_spec in E as [Ht Hb]. split; [tauto|]. split.
    + split; [discriminate|]. intros [H|H]; exfalso.
      * exact (Qlt_not_le _ _ Ht H).
      * exact (Qlt_not_le _ _ Hb H).
    + intros [_ H]. discriminate H.
  - assert (Hno : ¬ (Reveals.top (Reveals.rect n) < innerHeight ∧
                     0 < Reveals.bottom (Reveals.rect n))%Q).
    { intros H. apply isInViewport_spec in H. congruence. }
    split; [split; [discriminate | tauto]|]. split.
    + split; [|done]. intros _.
      destruct (Qlt_le_dec (Reveals.top (Reveals.rect n)) innerHeight) as [Ht|Ht];
        [|by left].
      destruct (Qlt_le_dec 0 (Reveals.bottom (Reveals.rect n))) as [Hb|Hb];
        [|by right].
      exfalso. by apply Hno.
    + intros [H _]. discriminate H.
Qed.

Lemma reveal_decided_by_position_witness :
  let elements := [Reveals.mkNode 3 (Reveals.mkDOMRect 100 300);
                   Reveals.mkNode 4 (Reveals.mkDOMRect 800 950)] in
  let calls := Reveals.initReveals 800 elements [] in
  In 4 (Reveals.observed calls) ↔ (800 <= 800 ∨ 950 <= 0)%Q.
Proof.
  intros elements calls.
  destruct (reveal_decided_by_position 800 elements
              (Reveals.mkNode 4 (Reveals.mkDOMRect 800 950))) as (_ & H & _).
  - simpl. apply NoDup_cons. split; [|apply NoDup_singleton].
    rewrite list_elem_of_singleton. discriminate.
  - right. left. reflexivity.
  - exact H.
Defined.
